(** * A shallow embedding of the LangGraph travel-planner notebook

    Source: [langGraph/simple_travel_planner_langgraph.ipynb].

    The notebook threads a [PlannerState] dictionary through three node
    functions ([input_city], [input_interests], [create_itinerary]) that
    talk to the console and to a chat model.  The console, the process
    environment and the chat model are collected in a [World]; node
    functions are computations in a state-and-exception monad over it. *)

From Stdlib Require Import NArith Ascii String Lia.
From stdpp Require Import base option list gmap strings fin_maps.

Local Open Scope N_scope.
Local Open Scope list_scope.

(** ** Python [str] values

    A Python [str] is a sequence of Unicode code points; [str.strip]
    depends on which code points count as whitespace, also beyond ASCII,
    so text is kept as a list of code points. *)

Module PyStr.

Definition str : Type := list N.

(** A source literal (all literals of the notebook are ASCII). *)
Definition lit (s : string) : str :=
  List.map N_of_ascii (list_ascii_of_string s).

(** [str.isspace] on one code point (CPython's [_PyUnicode_IsWhitespace]):
    U+0009..U+000D, U+001C..U+0020, U+0085, U+00A0, U+1680,
    U+2000..U+200A, U+2028, U+2029, U+202F, U+205F, U+3000. *)
Definition is_space (c : N) : bool :=
  ((9 <=? c) && (c <=? 13)) || ((28 <=? c) && (c <=? 32))
  || (c =? 133) || (c =? 160) || (c =? 5760)
  || ((8192 <=? c) && (c <=? 8202))
  || (c =? 8232) || (c =? 8233) || (c =? 8239) || (c =? 8287)
  || (c =? 12288).

(** [s.split(sep)] for a one-character separator: every occurrence of
    [sep] ends a token; empty tokens are kept, and the empty string gives
    one empty token. *)
Fixpoint split (sep : N) (s : str) : list str :=
  match s with
  | [] => [[]]
  | c :: rest =>
      if c =? sep then [] :: split sep rest
      else match split sep rest with
           | tok :: toks => (c :: tok) :: toks
           | [] => [[c]]
           end
  end.

(** [s.lstrip()], [s.rstrip()] and [s.strip()] with no argument. *)
Fixpoint lstrip (s : str) : str :=
  match s with
  | [] => []
  | c :: rest => if is_space c then lstrip rest else s
  end.

Definition rstrip (s : str) : str := rev (lstrip (rev s)).

Definition strip (s : str) : str := rstrip (lstrip s).

(** [sep.join(l)]. *)
Fixpoint join (sep : str) (l : list str) : str :=
  match l with
  | [] => []
  | [x] => x
  | x :: rest => x ++ sep ++ join sep rest
  end.

Definition comma : N := 44.
Definition newline : N := 10.

(** Number of occurrences of a code point. *)
Fixpoint count (c : N) (s : str) : nat :=
  match s with
  | [] => 0%nat
  | d :: rest => if d =? c then S (count c rest) else count c rest
  end.

End PyStr.
Export PyStr.

(** ** Messages and the planner state *)

(** [HumanMessage(content=...)], [AIMessage(content=...)] and the system
    message produced by the prompt template. *)
Inductive Message : Type :=
| HumanMessage (content : str)
| AIMessage (content : str)
| SystemMessage (content : str).

Definition content (m : Message) : str :=
  match m with
  | HumanMessage c | AIMessage c | SystemMessage c => c
  end.

(** [class PlannerState(TypedDict)]: the state of the graph has exactly the
    four keys of this schema; [{**state, key: value}] is then the record
    with that field replaced and the others copied. *)
Record PlannerState : Type := mkPlannerState {
  messages : list Message;
  city : str;
  interests : list str;
  itinerary : str
}.

(** ** Exceptions, the world and the monad *)

(** Why a graph configuration is refused. *)
Inductive ConfigError : Type :=
| DuplicateStep (name : string)
| UnknownStep (name : string)
| MissingEntry
| BadOutDegree.

Inductive Exn : Type :=
| TypeError
| EOFError
| ConfigurationError (e : ConfigError)
| StepLimit
| ServiceError (detail : str).

Definition result (A : Type) : Type := (Exn + A)%type.

#[export] Instance result_ret : MRet result := λ A a, inr a.
#[export] Instance result_bind : MBind result :=
  λ A B f r, match r with inl e => inl e | inr a => f a end.

(** Everything outside the program: the process environment, the [.env]
    file read by [load_dotenv], the console, and the chat model with the
    log of the requests sent to it. *)
Record World : Type := mkWorld {
  environ : gmap string str;
  dotenv : gmap string str;
  stdin : list str;
  stdout : list str;
  llm_respond : list Message → result str;
  llm_calls : list (list Message)
}.

Definition M (A : Type) : Type := World → result A * World.

#[export] Instance M_ret : MRet M := λ A a w, (inr a, w).
#[export] Instance M_bind : MBind M :=
  λ A B f m w,
    match m w with
    | (inl e, w') => (inl e, w')
    | (inr a, w') => f a w'
    end.

Definition raise {A} (e : Exn) : M A := λ w, (inl e, w).

Definition lift {A} (r : result A) : M A := λ w, (r, w).

Definition set_environ (env : gmap string str) (w : World) : World :=
  mkWorld env (dotenv w) (stdin w) (stdout w) (llm_respond w) (llm_calls w).

Definition set_stdin (l : list str) (w : World) : World :=
  mkWorld (environ w) (dotenv w) l (stdout w) (llm_respond w) (llm_calls w).

Definition set_stdout (l : list str) (w : World) : World :=
  mkWorld (environ w) (dotenv w) (stdin w) l (llm_respond w) (llm_calls w).

Definition set_llm_calls (l : list (list Message)) (w : World) : World :=
  mkWorld (environ w) (dotenv w) (stdin w) (stdout w) (llm_respond w) l.

(** [print(s)]: the text and a newline go to the console. *)
Definition print (s : str) : M unit :=
  λ w, (inr tt, set_stdout (stdout w ++ [s ++ [newline]]) w).

(** [input(prompt)]: the prompt is written, one line is read and returned
    without its line end; with no line left Python raises [EOFError]. *)
Definition input (prompt : str) : M str :=
  λ w, let w' := set_stdout (stdout w ++ [prompt]) w in
       match stdin w with
       | [] => (inl EOFError, w')
       | line :: rest => (inr line, set_stdin rest w')
       end.

(** [llm.invoke(request).content]: the request is sent; the service answers
    with a text or the call raises. *)
Definition llm_invoke (request : list Message) : M str :=
  λ w, (llm_respond w request, set_llm_calls (llm_calls w ++ [request]) w).

(** ** Cell 2: environment set-up *)

Definition OPENAI_API_KEY : string := "OPENAI_API_KEY".

(** [load_dotenv()]: variables of the [.env] file are added to the process
    environment; a variable that is already set keeps its value. *)
Definition load_dotenv : M unit :=
  λ w, (inr tt, set_environ (environ w ∪ dotenv w) w).

(** [os.getenv(key)]: [None] when the variable is not set. *)
Definition getenv (key : string) : M (option str) :=
  λ w, (inr (environ w !! key), w).

(** [os.environ[key] = value]: a value that is not a [str] (here [None])
    raises [TypeError]. *)
Definition environ_setitem (key : string) (value : option str) : M unit :=
  λ w, match value with
       | None => (inl TypeError, w)
       | Some v => (inr tt, set_environ (<[key := v]> (environ w)) w)
       end.

Definition setup : M unit :=
  load_dotenv ;;
  value ← getenv OPENAI_API_KEY;
  environ_setitem OPENAI_API_KEY value.

(** ** Cell 6: the prompt template *)

(** [itinerary_prompt.format_messages(city=..., interests=...)]. *)
Definition itinerary_prompt (city interests : str) : list Message :=
  [ SystemMessage
      (lit "You are a helpful travel assistant. Create a day trip itinerary for "
       ++ city ++ lit " based on the user's interests: " ++ interests
       ++ lit ". Provide a brief, bulleted itinerary.");
    HumanMessage (lit "Create an itinerary for my day trip.") ].

(** ** Cell 8: the node functions *)

Definition input_city (state : PlannerState) : M PlannerState :=
  print (lit "Please enter the city you want to visit for your day trip:") ;;
  user_message ← input (lit "Your input: ");
  mret {| messages := messages state ++ [HumanMessage user_message];
          city := user_message;
          interests := interests state;
          itinerary := itinerary state |}.

Definition input_interests (state : PlannerState) : M PlannerState :=
  print (lit "Please enter your interests for the trip to " ++ city state
         ++ lit " (comma-separated):") ;;
  user_message ← input (lit "Your input: ");
  mret {| messages := messages state ++ [HumanMessage user_message];
          city := city state;
          interests := List.map strip (split comma user_message);
          itinerary := itinerary state |}.

Definition create_itinerary (state : PlannerState) : M PlannerState :=
  print (lit "Creating an itinerary for " ++ city state
         ++ lit " based on interests: "
         ++ join (lit ", ") (interests state) ++ lit "...") ;;
  response ← llm_invoke
    (itinerary_prompt (city state) (join (lit ", ") (interests state)));
  print (newline :: lit "Final Itinerary:") ;;
  print response ;;
  mret {| messages := messages state ++ [AIMessage response];
          city := city state;
          interests := interests state;
          itinerary := response |}.

(** ** The graph executor ([StateGraph] of the langgraph library)

    The notebook imports [StateGraph] and [END] and only calls them; the
    executor's own code is not part of the notebook.  The definitions of
    this section follow the description of the workflow executor, under
    the names the notebook uses ([add_node] is the description's register,
    [set_entry_point] its setEntry, [add_edge] its connect, [invoke] its
    run). *)

(** Modelled from the spec: a step of the executor (library code, absent
    from the notebook), a function from state to state that may perform
    effects. *)
Definition Step : Type := PlannerState → M PlannerState.

(** Modelled from the spec: where control passes after a step (library
    code, absent from the notebook), a named step or the terminal marker
    [END]. *)
Inductive Target : Type :=
| Node (name : string)
| END.

(** Modelled from the spec: the executor under configuration (library code,
    absent from the notebook), with its step table, its entry step if set,
    and the connections declared so far. *)
Record StateGraph : Type := mkStateGraph {
  nodes : gmap string Step;
  entry_point : option string;
  edges : list (string * Target)
}.

(** Modelled from the spec: the executable workflow produced by [compile]
    (library code, absent from the notebook). *)
Record CompiledGraph : Type := mkCompiledGraph {
  steps : gmap string Step;
  entry : string;
  successor : gmap string Target
}.

(** [StateGraph(PlannerState)]: no step, no entry, no connection. *)
Definition StateGraph_new : StateGraph := mkStateGraph ∅ None [].

(** Whether a step of that name is in the step table. *)
Definition registered (name : string) (g : StateGraph) : bool :=
  bool_decide (is_Some (nodes g !! name)).

(** Modelled from the spec: [StateGraph.add_node] (library code, absent
    from the notebook).  Adds a named step to the step table; fails with a
    configuration error if the name is already registered. *)
Definition add_node (name : string) (action : Step) (g : StateGraph)
  : result StateGraph :=
  if registered name g then inl (ConfigurationError (DuplicateStep name))
  else inr (mkStateGraph (<[name := action]> (nodes g))
                         (entry_point g) (edges g)).

(** Modelled from the spec: [StateGraph.set_entry_point] (library code,
    absent from the notebook).  Designates the first step to run; fails
    with a configuration error if the name is not registered. *)
Definition set_entry_point (name : string) (g : StateGraph)
  : result StateGraph :=
  if registered name g
  then inr (mkStateGraph (nodes g) (Some name) (edges g))
  else inl (ConfigurationError (UnknownStep name)).

(** Modelled from the spec: [StateGraph.add_edge] (library code, absent
    from the notebook).  Declares that control passes from [start] to
    [target]; fails with a configuration error if either name, other than
    the terminal marker, is unregistered. *)
Definition add_edge (start : string) (target : Target) (g : StateGraph)
  : result StateGraph :=
  if negb (registered start g)
  then inl (ConfigurationError (UnknownStep start))
  else match target with
       | Node name =>
           if registered name g
           then inr (mkStateGraph (nodes g) (entry_point g)
                                  (edges g ++ [(start, target)]))
           else inl (ConfigurationError (UnknownStep name))
       | END =>
           inr (mkStateGraph (nodes g) (entry_point g)
                             (edges g ++ [(start, target)]))
       end.

(** Number of connections that leave [name]. *)
Definition out_degree (name : string) (es : list (string * Target)) : nat :=
  length (filter (λ e, e.1 = name) es).

(** Modelled from the spec: [StateGraph.compile] (library code, absent from
    the notebook).  Validates that the entry step is set and that every
    registered step has exactly one outgoing connection; produces the
    executable workflow.  Connections that close a cycle pass this
    validation; the run below is bounded instead. *)
Definition compile (g : StateGraph) : result CompiledGraph :=
  match entry_point g with
  | None => inl (ConfigurationError MissingEntry)
  | Some e =>
      if bool_decide
           (map_Forall (λ name _, out_degree name (edges g) = 1%nat) (nodes g))
      then inr (mkCompiledGraph (nodes g) e (list_to_map (edges g)))
      else inl (ConfigurationError BadOutDegree)
  end.

(** Modelled from the spec: running a compiled workflow (library code,
    absent from the notebook).  From the current position: at the terminal
    marker the state is the result; otherwise the current step's function
    is called with the current state, the state is replaced by its return
    value, and control advances to the connected step.  The description
    puts no bound on the loop; [fuel] bounds the number of steps taken. *)
Fixpoint run_from (fuel : nat) (g : CompiledGraph) (current : Target)
    (state : PlannerState) : M PlannerState :=
  match current with
  | END => mret state
  | Node name =>
      match fuel with
      | O => raise StepLimit
      | S fuel' =>
          match steps g !! name, successor g !! name with
          | Some action, Some next =>
              state' ← action state;
              run_from fuel' g next state'
          | _, _ => raise (ConfigurationError (UnknownStep name))
          end
      end
  end.

(** Modelled from the spec: [app.invoke] (library code, absent from the
    notebook): the run starts at the entry step and returns the final
    state. *)
Definition invoke (fuel : nat) (g : CompiledGraph) (state : PlannerState)
  : M PlannerState :=
  run_from fuel g (Node (entry g)) state.

(** Modelled from the spec: [app.stream] (library code, absent from the
    notebook): the same run, handing the caller the output of each step, in
    order, under the step's name. *)
Fixpoint stream_from (fuel : nat) (g : CompiledGraph) (current : Target)
    (state : PlannerState) : M (list (string * PlannerState)) :=
  match current with
  | END => mret []
  | Node name =>
      match fuel with
      | O => raise StepLimit
      | S fuel' =>
          match steps g !! name, successor g !! name with
          | Some action, Some next =>
              state' ← action state;
              outputs ← stream_from fuel' g next state';
              mret ((name, state') :: outputs)
          | _, _ => raise (ConfigurationError (UnknownStep name))
          end
      end
  end.

(** Modelled from the spec: [app.stream] from the entry step (library code,
    absent from the notebook). *)
Definition stream (fuel : nat) (g : CompiledGraph) (state : PlannerState)
  : M (list (string * PlannerState)) :=
  stream_from fuel g (Node (entry g)) state.

(** ** Cell 10: the workflow of the notebook *)

Definition workflow : result StateGraph :=
  g ← add_node "input_city" input_city StateGraph_new;
  g ← add_node "input_interests" input_interests g;
  g ← add_node "create_itinerary" create_itinerary g;
  g ← set_entry_point "input_city" g;
  g ← add_edge "input_city" (Node "input_interests") g;
  g ← add_edge "input_interests" (Node "create_itinerary") g;
  add_edge "create_itinerary" END g.

Definition app : result CompiledGraph := workflow ≫= compile.

(** ** Cells 14 and 16: running the planner *)

Definition initial_state (user_request : str) : PlannerState :=
  {| messages := [HumanMessage user_request];
     city := [];
     interests := [];
     itinerary := [] |}.

(** [for output in app.stream(state): pass]: the outputs are consumed and
    dropped; the function returns [None]. *)
Definition run_travel_planner (fuel : nat) (g : CompiledGraph)
    (user_request : str) : M unit :=
  print (lit "Initial Request: " ++ user_request ++ [newline]) ;;
  _ ← stream fuel g (initial_state user_request);
  mret tt.

(** The notebook, cell after cell; an exception ends it.  The cell that
    draws the graph is left out. *)
Definition notebook (fuel : nat) (user_request : str) : M unit :=
  setup ;;
  g ← lift app;
  run_travel_planner fuel g user_request.

(** The three node functions, one after the other. *)
Definition chain (state : PlannerState) : M PlannerState :=
  state1 ← input_city state;
  state2 ← input_interests state1;
  create_itinerary state2.

(** * Vocabulary of the statements *)

Definition all_space (s : str) : Prop := Forall (λ c, is_space c = true) s.

(** The shape of the notebook's graph: the entry, the three steps and
    their connections. *)
Definition is_planner_chain (g : CompiledGraph) : Prop :=
  entry g = "input_city"
  ∧ steps g !! "input_city" = Some input_city
  ∧ successor g !! "input_city" = Some (Node "input_interests")
  ∧ steps g !! "input_interests" = Some input_interests
  ∧ successor g !! "input_interests" = Some (Node "create_itinerary")
  ∧ steps g !! "create_itinerary" = Some create_itinerary
  ∧ successor g !! "create_itinerary" = Some END.

(** The outputs handed out by [stream]: the state after each step. *)
Definition chain_outputs (state : PlannerState)
  : M (list (string * PlannerState)) :=
  state1 ← input_city state;
  state2 ← input_interests state1;
  state3 ← create_itinerary state2;
  mret [("input_city", state1); ("input_interests", state2);
        ("create_itinerary", state3)].

(** The state of the last output, or the given state when no step ran. *)
Definition last_state (state : PlannerState)
    (outputs : list (string * PlannerState)) : PlannerState :=
  List.last (List.map snd outputs) state.

(** The request [create_itinerary] sends for a state. *)
Definition itinerary_request (state : PlannerState) : list Message :=
  itinerary_prompt (city state) (join (lit ", ") (interests state)).

(** The dictionaries the node functions return. *)
Definition with_city (state : PlannerState) (line : str) : PlannerState :=
  {| messages := messages state ++ [HumanMessage line];
     city := line;
     interests := interests state;
     itinerary := itinerary state |}.

Definition with_interests (state : PlannerState) (line : str)
  : PlannerState :=
  {| messages := messages state ++ [HumanMessage line];
     city := city state;
     interests := List.map strip (split comma line);
     itinerary := itinerary state |}.

Definition with_itinerary (state : PlannerState) (response : str)
  : PlannerState :=
  {| messages := messages state ++ [AIMessage response];
     city := city state;
     interests := interests state;
     itinerary := response |}.

(** The request sent when the two lines read were [l1] and [l2]. *)
Definition planner_request (l1 l2 : str) : list Message :=
  itinerary_prompt l1 (join (lit ", ") (List.map strip (split comma l2))).

(** The three outputs of a run that read [l1] and [l2] and got [response]. *)
Definition planner_outputs (state : PlannerState) (l1 l2 response : str)
  : list (string * PlannerState) :=
  [("input_city", with_city state l1);
   ("input_interests", with_interests (with_city state l1) l2);
   ("create_itinerary",
    with_itinerary (with_interests (with_city state l1) l2) response)].

(** The final state of a run that read [l1] and [l2] and got [response]. *)
Definition planned (state : PlannerState) (l1 l2 response : str)
  : PlannerState :=
  with_itinerary (with_interests (with_city state l1) l2) response.

(** [app.invoke(state)] and [app.stream(state)] on the notebook's global
    [app]; had [compile] failed, there would be no [app] to run. *)
Definition invoke_app (fuel : nat) (state : PlannerState) : M PlannerState :=
  g ← lift app; invoke fuel g state.

Definition stream_app (fuel : nat) (state : PlannerState)
  : M (list (string * PlannerState)) :=
  g ← lift app; stream fuel g state.

(** A console with two lines typed and a service that always answers. *)
Definition demo_world : World :=
  mkWorld ∅ ∅ [lit "paris"; lit "food, wine, art"] []
          (λ _, inr (lit "<itinerary text>")) [].

Definition demo_state : PlannerState :=
  initial_state (lit "I want to plan a day trip.").

(** What the description calls the tokens of a line: the pieces between
    commas. *)
Definition comma_tokens (line : str) (tokens : list str) : Prop :=
  tokens ≠ [] ∧ join [comma] tokens = line
  ∧ Forall (λ token, comma ∉ token) tokens.

(** [stripped] is [token] without its leading and trailing whitespace. *)
Definition stripped_of (token stripped : str) : Prop :=
  ∃ a b, token = a ++ stripped ++ b ∧ all_space a ∧ all_space b
         ∧ (∀ c t, stripped = c :: t → is_space c = false)
         ∧ (∀ t c, stripped = t ++ [c] → is_space c = false).

(** Two worlds give a run the same inputs when their consoles hold the
    same lines and their services answer every request alike; the text
    printed so far, the requests logged so far and the environment may
    differ. *)
Definition same_inputs (w1 w2 : World) : Prop :=
  stdin w1 = stdin w2
  ∧ ∀ request, llm_respond w1 request = llm_respond w2 request.

(** The same console and service as [demo_world], after other output and
    other requests, and with another environment. *)
Definition demo_world' : World :=
  mkWorld {[ OPENAI_API_KEY := lit "sk-demo" ]} ∅
          [lit "paris"; lit "food, wine, art"] [lit "earlier output"]
          (λ _, inr (lit "<itinerary text>")) [[HumanMessage (lit "hello")]].

(** The states a run goes through: the initial one and the output of each
    step. *)
Definition trace_of (state : PlannerState)
    (outputs : list (string * PlannerState)) : list PlannerState :=
  state :: List.map snd outputs.

(** Each state has the messages of the state before it, followed by one
    new entry. *)
Fixpoint append_only (tr : list PlannerState) : Prop :=
  match tr with
  | s :: rest =>
      match rest with
      | s' :: _ => (∃ m, messages s' = messages s ++ [m]) ∧ append_only rest
      | [] => True
      end
  | [] => True
  end.

(** The field has the value [v0] in the first [n] states and the value [v]
    in all later ones, and there are states of both kinds: it is written at
    step [n] and at no other step. *)
Definition written_at {A} (field : PlannerState → A)
    (tr : list PlannerState) (n : nat) (v0 v : A) : Prop :=
  (0 < n < length tr)%nat
  ∧ Forall (λ s, field s = v0) (take n tr)
  ∧ Forall (λ s, field s = v) (drop n tr).

(** The field goes once from empty to a non-empty value that it keeps. *)
Definition populated_once {A} (field : PlannerState → list A)
    (tr : list PlannerState) : Prop :=
  ∃ n v, v ≠ [] ∧ written_at field tr n [] v.

(** A console whose first line, the city, is empty. *)
Definition empty_city_world : World :=
  mkWorld ∅ ∅ [lit ""; lit "food"] []
          (λ _, inr (lit "<itinerary text>")) [].

(** One call on the graph builder, and a sequence of them, as cell 10
    makes them one after the other; the first error ends the sequence. *)
Inductive Call : Type :=
| AddNode (name : string) (action : Step)
| SetEntryPoint (name : string)
| AddEdge (start : string) (target : Target).

Definition call (c : Call) (g : StateGraph) : result StateGraph :=
  match c with
  | AddNode name action => add_node name action g
  | SetEntryPoint name => set_entry_point name g
  | AddEdge start target => add_edge start target g
  end.

Fixpoint configure (calls : list Call) (g : StateGraph)
  : result StateGraph :=
  match calls with
  | [] => inr g
  | c :: calls' => g' ← call c g; configure calls' g'
  end.

(** The list comprehension of [input_interests]:
    [[interest.strip() for interest in user_message.split(',')]]. *)
Definition parse_interests (line : str) : list str :=
  List.map strip (split comma line).

(** The messages the [messages] key is declared to hold:
    [List[HumanMessage | AIMessage]]. *)
Definition is_turn (m : Message) : Prop :=
  match m with
  | HumanMessage _ | AIMessage _ => True
  | SystemMessage _ => False
  end.

(** Cell 16 on the notebook's global [app]:
    [run_travel_planner(user_request)]. *)
Definition plan_app (fuel : nat) (user_request : str) : M unit :=
  g ← lift app; run_travel_planner fuel g user_request.

(** What the three steps of a completed run write to the console, piece by
    piece, when the lines read are [l1] and [l2] and the service answers
    [response]; and what [run_travel_planner] writes, which starts with
    the request. *)
Definition chain_transcript (l1 l2 response : str) : list str :=
  [ lit "Please enter the city you want to visit for your day trip:"
      ++ [newline];
    lit "Your input: ";
    (lit "Please enter your interests for the trip to " ++ l1
       ++ lit " (comma-separated):") ++ [newline];
    lit "Your input: ";
    (lit "Creating an itinerary for " ++ l1 ++ lit " based on interests: "
       ++ join (lit ", ") (parse_interests l2) ++ lit "...") ++ [newline];
    (newline :: lit "Final Itinerary:") ++ [newline];
    response ++ [newline] ].

Definition transcript (user_request l1 l2 response : str) : list str :=
  ((lit "Initial Request: " ++ user_request ++ [newline]) ++ [newline])
  :: chain_transcript l1 l2 response.

(** The variables of the process once [load_dotenv] has run. *)
Definition loaded_environ (w : World) : gmap string str :=
  environ w ∪ dotenv w.

(** A console with four lines typed, for two runs in a row. *)
Definition two_trips_world : World :=
  mkWorld ∅ ∅ [lit "paris"; lit "food, wine"; lit "rome"; lit "art"] []
          (λ _, inr (lit "<itinerary text>")) [].

(** A console with one line only, and a service that is down. *)
Definition one_line_world : World :=
  mkWorld ∅ ∅ [lit "paris"] [] (λ _, inr (lit "<itinerary text>")) [].

Definition service_down_world : World :=
  mkWorld ∅ ∅ [lit "paris"; lit "food"] []
          (λ _, inl (ServiceError (lit "timeout"))) [].

(** An environment without the key and a [.env] file that holds it. *)
Definition dotenv_world : World :=
  mkWorld {[ "HOME" := lit "/root" ]}
          {[ OPENAI_API_KEY := lit "sk-file"; "HOME" := lit "/tmp" ]}
          [lit "paris"; lit "food"] []
          (λ _, inr (lit "<itinerary text>")) [].

(** * Properties *)

(** ** Splitting, stripping and joining *)

Section PyStrFacts.

Implicit Types (s t : str) (c sep : N).

Lemma split_cons_inv sep s : ∃ tok toks, split sep s = tok :: toks.
Proof.
  destruct s as [|c rest]; simpl; [by eauto|].
  destruct (c =? sep); [by eauto|].
  destruct (split sep rest); by eauto.
Qed.

Lemma split_not_nil sep s : split sep s ≠ [].
Proof. destruct (split_cons_inv sep s) as (tok & toks & ->). done. Qed.

(** Joining the tokens with the separator gives the string back. *)
Lemma join_split sep s : join [sep] (split sep s) = s.
Proof.
  induction s as [|c rest IH]; simpl; [done|].
  destruct (split_cons_inv sep rest) as (tok & toks & E).
  rewrite E in IH |- *.
  destruct (N.eqb_spec c sep) as [->|_].
  - change (join [sep] ([] :: tok :: toks))
      with (sep :: join [sep] (tok :: toks)).
    by rewrite IH.
  - destruct toks as [|tok' toks]; simpl in *; by rewrite <- IH.
Qed.

(** No token contains the separator. *)
Lemma split_no_sep sep s : Forall (λ tok, sep ∉ tok) (split sep s).
Proof.
  induction s as [|c rest IH]; simpl.
  - constructor; [|done]. by intros ?%elem_of_nil.
  - destruct (N.eqb_spec c sep) as [->|Hne].
    + constructor; [|done]. by intros ?%elem_of_nil.
    + destruct (split sep rest) as [|tok toks]; simpl.
      * constructor; [|done].
        intros [->|?%elem_of_nil]%elem_of_cons; done.
      * inversion IH as [|? ? Htok Htoks]; subst.
        constructor; [|done].
        intros [->|?]%elem_of_cons; done.
Qed.

(** One token more than there are separators. *)
Lemma length_split sep s : length (split sep s) = S (count sep s).
Proof.
  induction s as [|c rest IH]; simpl; [done|].
  destruct (c =? sep); simpl; [by rewrite IH|].
  destruct (split sep rest) as [|tok toks]; simpl in *; lia.
Qed.

Lemma lstrip_spec s :
  ∃ a, s = a ++ lstrip s ∧ all_space a
       ∧ ∀ c t, lstrip s = c :: t → is_space c = false.
Proof.
  induction s as [|c rest (a & E & Ha & Hhd)]; simpl.
  - exists []. repeat split; [constructor|done].
  - destruct (is_space c) eqn:Hc.
    + exists (c :: a). repeat split.
      * simpl. by rewrite <- E.
      * by constructor.
      * done.
    + exists []. repeat split; [constructor|].
      intros c' t [= <- _]. done.
Qed.

Lemma rstrip_spec s :
  ∃ b, s = rstrip s ++ b ∧ all_space b
       ∧ ∀ t c, rstrip s = t ++ [c] → is_space c = false.
Proof.
  unfold rstrip.
  destruct (lstrip_spec (rev s)) as (a & E & Ha & Hhd).
  exists (rev a). repeat split.
  - rewrite <- rev_app_distr, <- E. by rewrite rev_involutive.
  - unfold all_space in *. rewrite Forall_forall in Ha |- *.
    intros c Hc. apply Ha, list_elem_of_In, in_rev, list_elem_of_In, Hc.
  - intros t c Ht. apply (Hhd c (rev t)).
    rewrite <- (rev_involutive (lstrip (rev s))), Ht.
    by rewrite rev_app_distr.
Qed.

(** [strip] removes a run of whitespace at each end, and what is left
    neither starts nor ends with whitespace. *)
Lemma strip_spec s :
  ∃ a b, s = a ++ strip s ++ b ∧ all_space a ∧ all_space b
         ∧ (∀ c t, strip s = c :: t → is_space c = false)
         ∧ (∀ t c, strip s = t ++ [c] → is_space c = false).
Proof.
  unfold strip.
  destruct (lstrip_spec s) as (a & Ea & Ha & Hhd).
  destruct (rstrip_spec (lstrip s)) as (b & Eb & Hb & Hlast).
  exists a, b. repeat split; try done.
  - by rewrite <- Eb.
  - intros c t Ht. apply (Hhd c (t ++ b)).
    by rewrite Eb, Ht.
Qed.

End PyStrFacts.

(** ** The compiled workflow *)

Arguments lit : simpl never.

Lemma app_compiles : ∃ g, app = inr g ∧ is_planner_chain g.
Proof.
  exists (mkCompiledGraph
            (list_to_map [("input_city", input_city);
                          ("input_interests", input_interests);
                          ("create_itinerary", create_itinerary)])
            "input_city"
            (list_to_map [("input_city", Node "input_interests");
                          ("input_interests", Node "create_itinerary");
                          ("create_itinerary", END)])).
  split; [vm_compute; reflexivity|].
  unfold is_planner_chain; simpl.
  repeat split; vm_compute; reflexivity.
Qed.

Lemma run_from_END fuel g state : run_from fuel g END state = mret state.
Proof. by destruct fuel. Qed.

Lemma stream_from_END fuel g state : stream_from fuel g END state = mret [].
Proof. by destruct fuel. Qed.

Lemma invoke_chain g k state w :
  is_planner_chain g →
  invoke (3 + k) g state w = chain state w.
Proof.
  intros (He & S1 & N1 & S2 & N2 & S3 & N3).
  unfold invoke, chain. rewrite He. simpl.
  rewrite S1, N1, S2, N2. simpl. rewrite S3, N3. simpl.
  unfold mbind, M_bind, mret, M_ret.
  destruct (input_city state w) as [[e|s1] w1]; [done|].
  destruct (input_interests s1 w1) as [[e|s2] w2]; [done|].
  destruct (create_itinerary s2 w2) as [[e|s3] w3]; [done|].
  by rewrite run_from_END.
Qed.

Lemma stream_chain g k state w :
  is_planner_chain g →
  stream (3 + k) g state w = chain_outputs state w.
Proof.
  intros (He & S1 & N1 & S2 & N2 & S3 & N3).
  unfold stream, chain_outputs. rewrite He. simpl.
  rewrite S1, N1, S2, N2. simpl. rewrite S3, N3. simpl.
  unfold mbind, M_bind, mret, M_ret.
  destruct (input_city state w) as [[e|s1] w1]; [done|].
  destruct (input_interests s1 w1) as [[e|s2] w2]; [done|].
  destruct (create_itinerary s2 w2) as [[e|s3] w3]; [done|].
  by rewrite stream_from_END.
Qed.

Lemma last_cons_default {A} (l : list A) (x d d' : A) :
  List.last (x :: l) d = List.last (x :: l) d'.
Proof.
  revert x. induction l as [|y l IH]; intros x; [done|].
  change (List.last (y :: l) d = List.last (y :: l) d'). apply IH.
Qed.

Lemma run_from_stream_from fuel g current state w :
  run_from fuel g current state w =
  match stream_from fuel g current state w with
  | (inl e, w') => (inl e, w')
  | (inr outputs, w') => (inr (last_state state outputs), w')
  end.
Proof.
  revert current state w.
  induction fuel as [|fuel IH]; intros [name|] state w; simpl; try done.
  destruct (steps g !! name) as [action|]; [|done].
  destruct (successor g !! name) as [next|]; [|done].
  unfold mbind, M_bind, mret, M_ret.
  destruct (action state w) as [[e|s1] w1]; [done|].
  rewrite IH.
  destruct (stream_from fuel g next s1 w1) as [[e|outs] w2]; [done|].
  unfold last_state. simpl.
  destruct outs as [|o outs]; [done|].
  do 2 f_equal. apply last_cons_default.
Qed.

(** ** What each node function does *)

Ltac unfold_steps :=
  unfold chain_outputs, chain, input_city, input_interests, create_itinerary,
    print, input, llm_invoke, mbind, M_bind, mret, M_ret,
    set_stdout, set_stdin, set_llm_calls;
  simpl.

Lemma input_city_inv state w r w' :
  input_city state w = (r, w') →
  llm_respond w' = llm_respond w ∧ llm_calls w' = llm_calls w
  ∧ environ w' = environ w
  ∧ match r with
    | inl e => e = EOFError ∧ stdin w = [] ∧ stdin w' = []
    | inr state' =>
        ∃ line, stdin w = line :: stdin w'
                ∧ state' = with_city state line
    end.
Proof.
  unfold_steps. destruct (stdin w) as [|line rest] eqn:E; simpl.
  - intros [= <- <-]. simpl. done.
  - intros [= <- <-]. simpl. repeat split; try done. by exists line.
Qed.

Lemma input_interests_inv state w r w' :
  input_interests state w = (r, w') →
  llm_respond w' = llm_respond w ∧ llm_calls w' = llm_calls w
  ∧ environ w' = environ w
  ∧ match r with
    | inl e => e = EOFError ∧ stdin w = [] ∧ stdin w' = []
    | inr state' =>
        ∃ line, stdin w = line :: stdin w'
                ∧ state' = with_interests state line
    end.
Proof.
  unfold_steps. destruct (stdin w) as [|line rest] eqn:E; simpl.
  - intros [= <- <-]. simpl. done.
  - intros [= <- <-]. simpl. repeat split; try done. by exists line.
Qed.

Lemma create_itinerary_inv state w r w' :
  create_itinerary state w = (r, w') →
  llm_respond w' = llm_respond w
  ∧ llm_calls w' = llm_calls w ++ [itinerary_request state]
  ∧ environ w' = environ w
  ∧ stdin w' = stdin w
  ∧ match r with
    | inl e => llm_respond w (itinerary_request state) = inl e
    | inr state' =>
        ∃ response, llm_respond w (itinerary_request state) = inr response
                ∧ state' = with_itinerary state response
    end.
Proof.
  unfold_steps. fold (itinerary_request state).
  destruct (llm_respond w (itinerary_request state)) as [e|response] eqn:E;
    simpl.
  - intros [= <- <-]. simpl. done.
  - intros [= <- <-]. simpl. repeat split; try done. by exists response.
Qed.

Lemma input_city_returns state w line rest :
  stdin w = line :: rest →
  ∃ state' w', input_city state w = (inr state', w') ∧ stdin w' = rest.
Proof. unfold_steps. intros ->. simpl. by eauto. Qed.

Lemma input_interests_returns state w line rest :
  stdin w = line :: rest →
  ∃ state' w', input_interests state w = (inr state', w') ∧ stdin w' = rest.
Proof. unfold_steps. intros ->. simpl. by eauto. Qed.

Lemma create_itinerary_returns state w response :
  llm_respond w (itinerary_request state) = inr response →
  ∃ state' w', create_itinerary state w = (inr state', w').
Proof.
  unfold_steps. fold (itinerary_request state). intros ->. simpl. by eauto.
Qed.

(** ** The whole chain *)

Lemma chain_outputs_returns state w l1 l2 rest response :
  stdin w = l1 :: l2 :: rest →
  llm_respond w (planner_request l1 l2) = inr response →
  ∃ w', chain_outputs state w = (inr (planner_outputs state l1 l2 response), w')
        ∧ stdin w' = rest
        ∧ llm_calls w' = llm_calls w ++ [planner_request l1 l2].
Proof.
  intros Hin Hllm. unfold_steps. rewrite Hin. simpl.
  fold (planner_request l1 l2). rewrite Hllm. simpl.
  eexists. split; [reflexivity|]. done.
Qed.

Lemma chain_outputs_inv state w outputs w' :
  chain_outputs state w = (inr outputs, w') →
  ∃ l1 l2 response,
    stdin w = l1 :: l2 :: stdin w'
    ∧ llm_respond w (planner_request l1 l2) = inr response
    ∧ outputs = planner_outputs state l1 l2 response.
Proof.
  unfold_steps.
  destruct (stdin w) as [|l1 [|l2 rest]]; simpl; try done.
  fold (planner_request l1 l2).
  destruct (llm_respond w (planner_request l1 l2)) as [e|response] eqn:E;
    simpl; [done|].
  intros [= <- <-]. simpl. by exists l1, l2, response.
Qed.

Lemma chain_chain_outputs state w :
  chain state w =
  match chain_outputs state w with
  | (inl e, w') => (inl e, w')
  | (inr outputs, w') => (inr (last_state state outputs), w')
  end.
Proof.
  unfold chain, chain_outputs, mbind, M_bind, mret, M_ret.
  destruct (input_city state w) as [[e|s1] w1]; [done|].
  destruct (input_interests s1 w1) as [[e|s2] w2]; [done|].
  destruct (create_itinerary s2 w2) as [[e|s3] w3]; done.
Qed.

Lemma chain_returns state w l1 l2 rest response :
  stdin w = l1 :: l2 :: rest →
  llm_respond w (planner_request l1 l2) = inr response →
  ∃ w', chain state w = (inr (planned state l1 l2 response), w')
        ∧ stdin w' = rest
        ∧ llm_calls w' = llm_calls w ++ [planner_request l1 l2].
Proof.
  intros Hin Hllm.
  destruct (chain_outputs_returns state w l1 l2 rest response Hin Hllm)
    as (w' & E & ? & ?).
  exists w'. rewrite chain_chain_outputs, E. done.
Qed.

Lemma chain_inv state w state' w' :
  chain state w = (inr state', w') →
  ∃ l1 l2 response,
    stdin w = l1 :: l2 :: stdin w'
    ∧ llm_respond w (planner_request l1 l2) = inr response
    ∧ state' = planned state l1 l2 response.
Proof.
  rewrite chain_chain_outputs.
  destruct (chain_outputs state w) as [[e|outputs] w1] eqn:E; [done|].
  intros [= <- <-].
  destruct (chain_outputs_inv _ _ _ _ E) as (l1 & l2 & response & ? & ? & ->).
  by exists l1, l2, response.
Qed.

Lemma planned_messages state l1 l2 response :
  messages (planned state l1 l2 response)
  = messages state ++ [HumanMessage l1; HumanMessage l2; AIMessage response].
Proof. simpl. by rewrite <- !app_assoc. Qed.

Lemma invoke_app_chain k state w : invoke_app (3 + k) state w = chain state w.
Proof.
  destruct app_compiles as (g & E & Hg).
  unfold invoke_app, lift, mbind at 1, M_bind at 1. rewrite E.
  by apply invoke_chain.
Qed.

Lemma stream_app_chain k state w :
  stream_app (3 + k) state w = chain_outputs state w.
Proof.
  destruct app_compiles as (g & E & Hg).
  unfold stream_app, lift, mbind at 1, M_bind at 1. rewrite E.
  by apply stream_chain.
Qed.

(** ** The workflow is the chain of its three steps *)

(** C1: the notebook's graph compiles, its entry is the city step, and
    for every initial state and every world running the compiled workflow
    (with fuel for at least its three steps) is the sequential composition
    input_city, then input_interests, then create_itinerary: each step's
    returned state is the next step's input and the state returned by the
    third step is the result; [stream] hands out the three intermediate
    states of the same run, the last of which is that result. *)
Theorem compiled_workflow_is_chain :
  ∃ g, app = inr g
       ∧ entry g = "input_city"
       ∧ (∀ k state w, invoke (3 + k) g state w = chain state w)
       ∧ (∀ k state w, stream (3 + k) g state w = chain_outputs state w)
       ∧ (∀ k state w,
            invoke (3 + k) g state w =
            match stream (3 + k) g state w with
            | (inl e, w') => (inl e, w')
            | (inr outputs, w') => (inr (last_state state outputs), w')
            end).
Proof.
  destruct app_compiles as (g & E & Hg).
  exists g. split; [done|]. split; [by destruct Hg|].
  split; [|split].
  - intros k state w. by apply invoke_chain.
  - intros k state w. by apply stream_chain.
  - intros k state w. apply run_from_stream_from.
Qed.

(** ** The input steps *)

Lemma split_comma_tokens line : comma_tokens line (split comma line).
Proof.
  split; [apply split_not_nil|].
  split; [apply join_split|apply split_no_sep].
Qed.

Lemma map_strip_stripped tokens :
  Forall2 stripped_of tokens (List.map strip tokens).
Proof.
  induction tokens as [|token tokens IH]; simpl; constructor; [|done].
  apply strip_spec.
Qed.

(** C2: for every line read by the interests step, the step returns, the
    interests field is the line split on commas with each token stripped
    of leading and trailing whitespace (in order, one token more than the
    line has commas), and the raw line is appended as a user message;
    "food, wine, art" gives
    ["food"; "wine"; "art"]. *)
Theorem input_interests_splits_and_strips state w line rest :
  stdin w = line :: rest →
  ∃ state' w',
    input_interests state w = (inr state', w')
    ∧ interests state' = List.map strip (split comma line)
    ∧ length (interests state') = S (count comma line)
    ∧ (∃ tokens, comma_tokens line tokens
                 ∧ Forall2 stripped_of tokens (interests state'))
    ∧ messages state' = messages state ++ [HumanMessage line]
    ∧ (line = lit "food, wine, art" →
       interests state' = [lit "food"; lit "wine"; lit "art"]).
Proof.
  intros Hin.
  destruct (input_interests_returns state w line rest Hin)
    as (state' & w' & E & Hrest).
  exists state', w'. split; [done|].
  destruct (input_interests_inv _ _ _ _ E) as (_ & _ & _ & line' & Hin' & ->).
  rewrite Hin in Hin'. injection Hin' as <- _. simpl.
  split; [done|].
  split; [by rewrite length_map, length_split|].
  split; [|split; [done|]].
  - exists (split comma line).
    split; [apply split_comma_tokens|apply map_strip_stripped].
  - intros ->. vm_compute. reflexivity.
Qed.

Lemma input_interests_splits_and_strips_witness :
  ∃ state' w',
    input_interests demo_state (set_stdin [lit "food, wine, art"] demo_world)
    = (inr state', w')
    ∧ interests state' = [lit "food"; lit "wine"; lit "art"]
    ∧ messages state'
      = messages demo_state ++ [HumanMessage (lit "food, wine, art")].
Proof.
  destruct (input_interests_splits_and_strips demo_state
              (set_stdin [lit "food, wine, art"] demo_world)
              (lit "food, wine, art") [] eq_refl)
    as (state' & w' & E & _ & _ & _ & Hm & Hex).
  exists state', w'. split; [exact E|]. split; [exact (Hex eq_refl)|exact Hm].
Defined.

(** C4: for every line read by the city step, the step returns and the
    city field is that line, unchanged (nothing is trimmed or transformed);
    the line is also the user message appended.  "paris" gives "paris". *)
Theorem input_city_keeps_line state w line rest :
  stdin w = line :: rest →
  ∃ state' w',
    input_city state w = (inr state', w')
    ∧ city state' = line
    ∧ messages state' = messages state ++ [HumanMessage line]
    ∧ (line = lit "paris" → city state' = lit "paris").
Proof.
  intros Hin.
  destruct (input_city_returns state w line rest Hin)
    as (state' & w' & E & Hrest).
  exists state', w'. split; [done|].
  destruct (input_city_inv _ _ _ _ E) as (_ & _ & _ & line' & Hin' & ->).
  rewrite Hin in Hin'. injection Hin' as <- _. simpl.
  repeat split; done.
Qed.

Lemma input_city_keeps_line_witness :
  ∃ state' w',
    input_city demo_state demo_world = (inr state', w')
    ∧ city state' = lit "paris".
Proof.
  destruct (input_city_keeps_line demo_state demo_world (lit "paris")
              [lit "food, wine, art"] eq_refl)
    as (state' & w' & E & _ & _ & Hex).
  exists state', w'. split; [exact E|exact (Hex eq_refl)].
Defined.

(** C5: when the interests step reads the empty line, it returns and the
    interests field is the one-element sequence holding the empty string:
    the empty token is neither rejected nor dropped. *)
Theorem input_interests_empty_line state w rest :
  stdin w = [] :: rest →
  ∃ state' w',
    input_interests state w = (inr state', w')
    ∧ interests state' = [[]]
    ∧ length (interests state') = 1%nat.
Proof.
  intros Hin.
  destruct (input_interests_returns state w [] rest Hin)
    as (state' & w' & E & Hrest).
  exists state', w'. split; [done|].
  destruct (input_interests_inv _ _ _ _ E) as (_ & _ & _ & line' & Hin' & ->).
  rewrite Hin in Hin'. injection Hin' as <- _. done.
Qed.

Lemma input_interests_empty_line_witness :
  ∃ state' w',
    input_interests demo_state (set_stdin [lit ""] demo_world)
    = (inr state', w')
    ∧ interests state' = [lit ""].
Proof.
  destruct (input_interests_empty_line demo_state
              (set_stdin [lit ""] demo_world) [] eq_refl)
    as (state' & w' & E & Hi & _).
  exists state', w'. split; [exact E|exact Hi].
Defined.

(** ** The whole run *)

(** C3: from an initial state whose messages hold one entry, a run of the
    full chain that completes ends with exactly that entry followed by
    three appended ones, so the length is the initial length plus three;
    and the run does complete whenever the console has two lines and the
    service answers, the appended entries being the two lines as user
    messages and the answer as an assistant message. *)
Theorem run_appends_three_messages k state w :
  length (messages state) = 1%nat →
  (∀ state' w',
     invoke_app (3 + k) state w = (inr state', w') →
     (∃ m1 m2 m3, messages state' = messages state ++ [m1; m2; m3])
     ∧ length (messages state') = (length (messages state) + 3)%nat
     ∧ length (messages state') = 4%nat)
  ∧ (∀ l1 l2 rest response,
       stdin w = l1 :: l2 :: rest →
       llm_respond w (planner_request l1 l2) = inr response →
       ∃ state' w',
         invoke_app (3 + k) state w = (inr state', w')
         ∧ messages state'
           = messages state
             ++ [HumanMessage l1; HumanMessage l2; AIMessage response]).
Proof.
  intros Hlen. split.
  - intros state' w'. rewrite invoke_app_chain.
    intros (l1 & l2 & response & _ & _ & ->)%chain_inv.
    rewrite planned_messages. split; [by eauto|].
    rewrite length_app, Hlen. done.
  - intros l1 l2 rest response Hin Hllm.
    destruct (chain_returns state w l1 l2 rest response Hin Hllm)
      as (w' & E & _).
    exists (planned state l1 l2 response), w'.
    rewrite invoke_app_chain. split; [done|apply planned_messages].
Qed.

Lemma run_appends_three_messages_witness :
  ∃ state' w',
    invoke_app 3 demo_state demo_world = (inr state', w')
    ∧ length (messages state') = 4%nat.
Proof.
  destruct (run_appends_three_messages 0 demo_state demo_world eq_refl)
    as [Hlen Hret].
  destruct (Hret (lit "paris") (lit "food, wine, art") []
                 (lit "<itinerary text>") eq_refl eq_refl)
    as (state' & w' & E & _).
  exists state', w'. split; [exact E|].
  destruct (Hlen state' w' E) as (_ & _ & H4). exact H4.
Defined.

Lemma chain_outputs_same_inputs state w1 w2 :
  same_inputs w1 w2 →
  (chain_outputs state w1).1 = (chain_outputs state w2).1.
Proof.
  intros [Hin Hllm]. unfold_steps. rewrite Hin.
  destruct (stdin w2) as [|l1 [|l2 rest]]; simpl; try done.
  rewrite Hllm.
  by destruct (llm_respond w2 _).
Qed.

(** C6: two runs of the workflow from the same initial state, in worlds
    whose input source yields the same lines and whose service yields the
    same responses, end alike: the same final state (or the same
    exception), and the same streamed outputs, whatever else differs
    between the two worlds. *)
Theorem workflow_deterministic k state w1 w2 :
  same_inputs w1 w2 →
  (invoke_app (3 + k) state w1).1 = (invoke_app (3 + k) state w2).1
  ∧ (stream_app (3 + k) state w1).1 = (stream_app (3 + k) state w2).1.
Proof.
  intros Hsame.
  pose proof (chain_outputs_same_inputs state w1 w2 Hsame) as Hout.
  rewrite !invoke_app_chain, !stream_app_chain, !chain_chain_outputs.
  split; [|done].
  destruct (chain_outputs state w1) as [[e1|o1] w1'],
           (chain_outputs state w2) as [[e2|o2] w2']; simpl in *;
    congruence.
Qed.

Lemma workflow_deterministic_witness :
  (invoke_app 3 demo_state demo_world).1
  = (invoke_app 3 demo_state demo_world').1
  ∧ (stream_app 3 demo_state demo_world).1
    = (stream_app 3 demo_state demo_world').1.
Proof.
  apply (workflow_deterministic 0 demo_state demo_world demo_world').
  split; [reflexivity|]. intros request. reflexivity.
Defined.

(** ** Invariants of a run *)

(** C7, as stated, fails: when the line read for the city is empty, the
    run completes and the city field is empty in every state of the run,
    so it never goes from empty to populated. *)
Lemma city_not_populated_on_empty_line :
  ∃ outputs w',
    stream_app 3 demo_state empty_city_world = (inr outputs, w')
    ∧ city demo_state = []
    ∧ city (last_state demo_state outputs) = []
    ∧ ¬ populated_once city (trace_of demo_state outputs).
Proof.
  destruct (chain_outputs_returns demo_state empty_city_world
              (lit "") (lit "food") [] (lit "<itinerary text>")
              eq_refl eq_refl) as (w' & E & _).
  exists (planner_outputs demo_state (lit "") (lit "food")
            (lit "<itinerary text>")), w'.
  split; [by rewrite (stream_app_chain 0)|].
  split; [done|]. split; [done|].
  intros (n & v & Hv & Hn & _ & Hafter).
  simpl in Hn.
  destruct n as [|[|[|[|n]]]]; try lia;
    simpl in Hafter; inversion Hafter as [|? ? Hc _]; subst;
    by apply Hv.
Qed.

(** C7, amended: across a run that completes, messages is append-only and
    grows by exactly one entry per step; city is written by the first
    step only, interests by the second only and itinerary by the third
    only, each keeping its written value through every later step; the
    written values are the city line, the stripped tokens of the interests
    line (never an empty sequence) and the service's answer.  Hence, from
    empty fields, interests always goes once from empty to populated, and
    city and itinerary do so whenever the city line and the answer are not
    empty. *)
Theorem run_fields_written_once k state w l1 l2 rest response :
  stdin w = l1 :: l2 :: rest →
  llm_respond w (planner_request l1 l2) = inr response →
  ∃ outputs w',
    stream_app (3 + k) state w = (inr outputs, w')
    ∧ length (trace_of state outputs) = 4%nat
    ∧ append_only (trace_of state outputs)
    ∧ written_at city (trace_of state outputs) 1 (city state) l1
    ∧ written_at interests (trace_of state outputs) 2 (interests state)
        (List.map strip (split comma l2))
    ∧ written_at itinerary (trace_of state outputs) 3 (itinerary state)
        response
    ∧ List.map strip (split comma l2) ≠ []
    ∧ (city state = [] → l1 ≠ [] →
       populated_once city (trace_of state outputs))
    ∧ (interests state = [] →
       populated_once interests (trace_of state outputs))
    ∧ (itinerary state = [] → response ≠ [] →
       populated_once itinerary (trace_of state outputs)).
Proof.
  intros Hin Hllm.
  destruct (chain_outputs_returns state w l1 l2 rest response Hin Hllm)
    as (w' & E & _).
  exists (planner_outputs state l1 l2 response), w'.
  rewrite stream_app_chain. split; [done|]. split; [done|].
  assert (Hne : List.map strip (split comma l2) ≠ []).
  { destruct (split_cons_inv comma l2) as (tok & toks & ->). done. }
  assert (Hc : written_at city
                 (trace_of state (planner_outputs state l1 l2 response))
                 1 (city state) l1).
  { split; [simpl; lia|]. split; simpl; repeat constructor. }
  assert (Hi : written_at interests
                 (trace_of state (planner_outputs state l1 l2 response))
                 2 (interests state) (List.map strip (split comma l2))).
  { split; [simpl; lia|]. split; simpl; repeat constructor. }
  assert (Ht : written_at itinerary
                 (trace_of state (planner_outputs state l1 l2 response))
                 3 (itinerary state) response).
  { split; [simpl; lia|]. split; simpl; repeat constructor. }
  split; [simpl; by eauto 10|].
  do 4 (split; [done|]).
  split; [|split].
  - intros H0 Hl1. exists 1%nat, l1. rewrite H0 in Hc. done.
  - intros H0. exists 2%nat, (List.map strip (split comma l2)).
    rewrite H0 in Hi. done.
  - intros H0 Hr. exists 3%nat, response. rewrite H0 in Ht. done.
Qed.

Lemma run_fields_written_once_witness :
  ∃ outputs w',
    stream_app 3 demo_state demo_world = (inr outputs, w')
    ∧ append_only (trace_of demo_state outputs)
    ∧ populated_once city (trace_of demo_state outputs)
    ∧ populated_once interests (trace_of demo_state outputs)
    ∧ populated_once itinerary (trace_of demo_state outputs).
Proof.
  destruct (run_fields_written_once 0 demo_state demo_world
              (lit "paris") (lit "food, wine, art") []
              (lit "<itinerary text>") eq_refl eq_refl)
    as (outputs & w' & E & _ & Ha & _ & _ & _ & _ & Hc & Hi & Ht).
  exists outputs, w'. split; [exact E|]. split; [exact Ha|].
  split; [|split].
  - apply Hc; [reflexivity|discriminate].
  - apply Hi. reflexivity.
  - apply Ht; [reflexivity|discriminate].
Defined.

(** ** Configuration errors *)

Lemma workflow_configure :
  workflow =
  configure [AddNode "input_city" input_city;
             AddNode "input_interests" input_interests;
             AddNode "create_itinerary" create_itinerary;
             SetEntryPoint "input_city";
             AddEdge "input_city" (Node "input_interests");
             AddEdge "input_interests" (Node "create_itinerary");
             AddEdge "create_itinerary" END] StateGraph_new.
Proof.
  vm_compute. reflexivity.
Qed.

Section Builder.

Implicit Types (g : StateGraph) (name : string).

Lemma add_node_registered name action g :
  registered name g = true →
  add_node name action g = inl (ConfigurationError (DuplicateStep name)).
Proof. unfold add_node. by intros ->. Qed.

Lemma add_node_registers name action g g' :
  add_node name action g = inr g' → registered name g' = true.
Proof.
  unfold add_node. destruct (registered name g); [done|].
  intros [= <-]. unfold registered. simpl.
  apply bool_decide_eq_true. rewrite lookup_insert_eq. by eexists.
Qed.

(** No call removes a step from the table. *)
Lemma call_keeps_registered c name g g' :
  registered name g = true → call c g = inr g' → registered name g' = true.
Proof.
  unfold registered. rewrite !bool_decide_eq_true. intros Hreg.
  destruct c as [other action|entry_name|start target]; simpl.
  - unfold add_node. destruct (registered other g); [done|].
    intros [= <-]. simpl. apply lookup_insert_is_Some'. by right.
  - unfold set_entry_point. destruct (registered entry_name g); [|done].
    by intros [= <-].
  - unfold add_edge. destruct (negb (registered start g)); [done|].
    destruct target as [next|].
    + destruct (registered next g); [|done]. by intros [= <-].
    + by intros [= <-].
Qed.

Lemma configure_keeps_registered calls name g g' :
  registered name g = true →
  configure calls g = inr g' → registered name g' = true.
Proof.
  revert g. induction calls as [|c calls IH]; intros g Hreg; simpl.
  - by intros [= <-].
  - unfold mbind, result_bind.
    destruct (call c g) as [e|g1] eqn:E; [done|].
    apply IH. by eapply call_keeps_registered.
Qed.

Lemma configure_app calls1 calls2 g :
  configure (calls1 ++ calls2) g = configure calls1 g ≫= configure calls2.
Proof.
  revert g. induction calls1 as [|c calls1 IH]; intros g; simpl; [done|].
  unfold mbind, result_bind in *.
  destruct (call c g) as [e|g1]; [done|]. apply IH.
Qed.

(** Every failure of the builder is a configuration error. *)
Lemma call_error c g e :
  call c g = inl e → ∃ ce, e = ConfigurationError ce.
Proof.
  destruct c as [other action|entry_name|start target]; simpl.
  - unfold add_node. destruct (registered other g); [|done].
    intros [= <-]. by eexists.
  - unfold set_entry_point. destruct (registered entry_name g); [done|].
    intros [= <-]. by eexists.
  - unfold add_edge. destruct (negb (registered start g)).
    { intros [= <-]. by eexists. }
    destruct target as [next|]; [|done].
    destruct (registered next g); [done|].
    intros [= <-]. by eexists.
Qed.

Lemma configure_error calls g e :
  configure calls g = inl e → ∃ ce, e = ConfigurationError ce.
Proof.
  revert g. induction calls as [|c calls IH]; intros g; simpl; [done|].
  unfold mbind, result_bind.
  destruct (call c g) as [e'|g1] eqn:E; [|by apply IH].
  intros [= <-]. by eapply call_error.
Qed.

Lemma configure_duplicate before between after name action1 action2 g :
  ∃ ce,
    configure (before ++ [AddNode name action1] ++ between
               ++ [AddNode name action2] ++ after) g
    = inl (ConfigurationError ce)
    ∧ ∀ g', configure (before ++ [AddNode name action1] ++ between) g
            = inr g' →
            ce = DuplicateStep name.
Proof.
  rewrite (app_assoc before), (app_assoc (before ++ _)), configure_app.
  destruct (configure ((before ++ [AddNode name action1]) ++ between) g)
    as [e|g3] eqn:E3.
  - destruct (configure_error _ _ _ E3) as (ce & ->).
    exists ce. split; [done|].
    intros g'. by rewrite (app_assoc before), E3.
  - exists (DuplicateStep name).
    split; [|done].
    assert (registered name g3 = true) as Hreg.
    { rewrite configure_app in E3. rewrite configure_app in E3.
      unfold mbind, result_bind in E3.
      destruct (configure before g) as [e|g1]; [done|].
      simpl in E3. unfold mbind, result_bind in E3.
      destruct (add_node name action1 g1) as [e|g2] eqn:E2; [done|].
      eapply configure_keeps_registered; [|exact E3].
      by eapply add_node_registers. }
    unfold mbind, result_bind. simpl.
    by rewrite (add_node_registered _ _ _ Hreg).
Qed.

End Builder.

(** C8: a configuration that registers two steps under the same name,
    whatever calls come before, between and after the two registrations,
    fails with a configuration error (the duplicate-step error when the
    calls before the second registration went through), so that [compile]
    yields no workflow: a program that configures, compiles and then runs
    stops with that error in an untouched world, before any step runs.  In
    particular registering a name twice in a row is the duplicate-step
    error. *)
Theorem duplicate_registration_fails
    before between after name action1 action2 g :
  ∃ ce,
    configure (before ++ [AddNode name action1] ++ between
               ++ [AddNode name action2] ++ after) g
    = inl (ConfigurationError ce)
    ∧ (∀ g', configure (before ++ [AddNode name action1] ++ between) g
             = inr g' →
             ce = DuplicateStep name)
    ∧ (add_node name action1 g ≫= add_node name action2)
      = inl (ConfigurationError (DuplicateStep name))
    ∧ ∀ fuel state w,
        (compiled ← lift
           (configure (before ++ [AddNode name action1] ++ between
                       ++ [AddNode name action2] ++ after) g
            ≫= compile);
         invoke fuel compiled state) w
        = (inl (ConfigurationError ce), w).
Proof.
  destruct (configure_duplicate before between after name action1 action2 g)
    as (ce & E & Hce).
  exists ce. split; [done|]. split; [done|]. split.
  - unfold mbind, result_bind.
    destruct (add_node name action1 g) as [e|g1] eqn:E1.
    + unfold add_node in E1. destruct (registered name g); by simplify_eq.
    + apply add_node_registered. by eapply add_node_registers.
  - intros fuel state w. by rewrite E.
Qed.

(** ** The credential *)

Lemma setup_returns w key :
  (environ w ∪ dotenv w) !! OPENAI_API_KEY = Some key →
  ∃ w', setup w = (inr tt, w')
        ∧ environ w' !! OPENAI_API_KEY = Some key.
Proof.
  intros Hkey. unfold setup, load_dotenv, getenv, environ_setitem,
    mbind, M_bind, set_environ. simpl. rewrite Hkey.
  eexists. split; [reflexivity|]. simpl. by rewrite lookup_insert_eq.
Qed.

(** C9: when the API key is absent from the process environment (the
    environment variables and the [.env] file that [load_dotenv] adds to
    them), the notebook stops in its set-up cell with the error raised by
    the assignment of the missing key, a [TypeError]: no request is sent to
    the text-generation service, no line is read and nothing is printed. *)
Theorem missing_api_key_fails_fast fuel user_request w :
  environ w !! OPENAI_API_KEY = None →
  dotenv w !! OPENAI_API_KEY = None →
  ∃ w',
    notebook fuel user_request w = (inl TypeError, w')
    ∧ setup w = (inl TypeError, w')
    ∧ llm_calls w' = llm_calls w
    ∧ stdin w' = stdin w
    ∧ stdout w' = stdout w.
Proof.
  intros Henv Hfile.
  assert ((environ w ∪ dotenv w) !! OPENAI_API_KEY = None) as Hnone.
  { by apply lookup_union_None. }
  unfold notebook, setup, load_dotenv, getenv, environ_setitem,
    mbind, M_bind, set_environ. simpl. rewrite Hnone.
  eexists. split; [reflexivity|]. done.
Qed.

Lemma missing_api_key_fails_fast_witness :
  ∃ w',
    notebook 3 (lit "I want to plan a day trip.") demo_world
    = (inl TypeError, w')
    ∧ llm_calls w' = [].
Proof.
  destruct (missing_api_key_fails_fast 3 (lit "I want to plan a day trip.")
              demo_world eq_refl eq_refl)
    as (w' & E & _ & Hcalls & _).
  exists w'. split; [exact E|exact Hcalls].
Defined.

(** ** Frame *)

(** C10: each step that returns leaves the fields of the other steps as
    they were: input_city keeps interests and itinerary, input_interests
    keeps city and itinerary, create_itinerary keeps city and interests;
    each appends one message to the messages it was given, and the message
    create_itinerary appends is an assistant message whose content is the
    new itinerary field.  The input steps return whenever a line can be
    read, and create_itinerary whenever the service answers. *)
Theorem steps_change_only_their_fields state w :
  (∀ state' w',
     input_city state w = (inr state', w') →
     interests state' = interests state
     ∧ itinerary state' = itinerary state
     ∧ messages state' = messages state ++ [HumanMessage (city state')])
  ∧ (∀ state' w',
       input_interests state w = (inr state', w') →
       city state' = city state
       ∧ itinerary state' = itinerary state
       ∧ ∃ line, messages state' = messages state ++ [HumanMessage line])
  ∧ (∀ state' w',
       create_itinerary state w = (inr state', w') →
       city state' = city state
       ∧ interests state' = interests state
       ∧ messages state' = messages state ++ [AIMessage (itinerary state')]
       ∧ content (List.last (messages state') (HumanMessage []))
         = itinerary state')
  ∧ (∀ line rest,
       stdin w = line :: rest →
       (∃ state' w', input_city state w = (inr state', w'))
       ∧ (∃ state' w', input_interests state w = (inr state', w')))
  ∧ (∀ response,
       llm_respond w (itinerary_request state) = inr response →
       ∃ state' w', create_itinerary state w = (inr state', w')).
Proof.
  split; [|split; [|split; [|split]]].
  - intros state' w' (_ & _ & _ & line & _ & ->)%input_city_inv. done.
  - intros state' w' (_ & _ & _ & line & _ & ->)%input_interests_inv.
    simpl. by eauto.
  - intros state' w' (_ & _ & _ & _ & response & _ & ->)%create_itinerary_inv.
    simpl. repeat split; try done. by rewrite last_last.
  - intros line rest Hin. split.
    + destruct (input_city_returns state w line rest Hin)
        as (state' & w' & E & _). by eauto.
    + destruct (input_interests_returns state w line rest Hin)
        as (state' & w' & E & _). by eauto.
  - intros response Hllm. by eapply create_itinerary_returns.
Qed.

Lemma steps_change_only_their_fields_witness :
  (∃ state' w',
     input_city demo_state demo_world = (inr state', w')
     ∧ interests state' = interests demo_state
     ∧ itinerary state' = itinerary demo_state)
  ∧ (∃ state' w',
       input_interests demo_state demo_world = (inr state', w')
       ∧ city state' = city demo_state
       ∧ itinerary state' = itinerary demo_state)
  ∧ (∃ state' w',
       create_itinerary demo_state demo_world = (inr state', w')
       ∧ city state' = city demo_state
       ∧ interests state' = interests demo_state
       ∧ messages state'
         = messages demo_state ++ [AIMessage (itinerary state')]).
Proof.
  destruct (steps_change_only_their_fields demo_state demo_world)
    as (Hcity & Hinterests & Hitinerary & Hinput & Hllm).
  destruct (Hinput (lit "paris") [lit "food, wine, art"] eq_refl)
    as [(s1 & w1 & E1) (s2 & w2 & E2)].
  destruct (Hllm (lit "<itinerary text>") eq_refl) as (s3 & w3 & E3).
  split; [|split].
  - exists s1, w1. destruct (Hcity s1 w1 E1) as (Hi & Ht & _).
    split; [exact E1|]. split; [exact Hi|exact Ht].
  - exists s2, w2. destruct (Hinterests s2 w2 E2) as (Hc & Ht & _).
    split; [exact E2|]. split; [exact Hc|exact Ht].
  - exists s3, w3. destruct (Hitinerary s3 w3 E3) as (Hc & Hi & Hm & _).
    split; [exact E3|]. split; [exact Hc|]. split; [exact Hi|exact Hm].
Defined.

(** * Further properties of the notebook's code *)

(** ** More on splitting and stripping *)

Section PyStrMore.

Implicit Types (s t : str) (c sep : N).

Lemma split_without_sep sep t : sep ∉ t → split sep t = [t].
Proof.
  induction t as [|c t IH]; simpl; [done|].
  intros Hc. apply not_elem_of_cons in Hc as [Hne Ht].
  destruct (N.eqb_spec sep c) as [->|_]; [done|].
  destruct (N.eqb_spec c sep) as [->|_]; [done|].
  by rewrite (IH Ht).
Qed.

Lemma split_app_sep sep t rest :
  sep ∉ t → split sep (t ++ sep :: rest) = t :: split sep rest.
Proof.
  induction t as [|c t IH]; simpl.
  - intros _. by rewrite N.eqb_refl.
  - intros Hc. apply not_elem_of_cons in Hc as [Hne Ht].
    destruct (N.eqb_spec c sep) as [->|_]; [done|].
    by rewrite (IH Ht).
Qed.

Lemma split_app_pad sep pad s :
  sep ∉ pad →
  split sep (pad ++ s) =
  match split sep s with
  | tok :: toks => (pad ++ tok) :: toks
  | [] => [pad]
  end.
Proof.
  destruct (split_cons_inv sep s) as (tok & toks & E). rewrite E.
  induction pad as [|c pad IH]; simpl.
  - intros _. by rewrite E.
  - intros Hc. apply not_elem_of_cons in Hc as [Hne Hpad].
    destruct (N.eqb_spec c sep) as [->|_]; [done|].
    by rewrite (IH Hpad).
Qed.

(** Splitting what [join] made, with a separator that starts with [sep]
    and tokens free of [sep]: the tokens come back, all but the first with
    the rest of the separator in front. *)
Lemma split_join_pad sep pad tok toks :
  sep ∉ pad → Forall (λ t, sep ∉ t) (tok :: toks) →
  split sep (join (sep :: pad) (tok :: toks))
  = tok :: List.map (λ t, pad ++ t) toks.
Proof.
  intros Hpad. revert tok.
  induction toks as [|tok' toks IH]; intros tok Hall.
  - simpl. apply split_without_sep. by inversion Hall.
  - inversion Hall as [|? ? Htok Hrest]; subst.
    change (join (sep :: pad) (tok :: tok' :: toks))
      with (tok ++ sep :: (pad ++ join (sep :: pad) (tok' :: toks))).
    rewrite (split_app_sep _ _ _ Htok), (split_app_pad _ _ _ Hpad).
    by rewrite (IH tok' Hrest).
Qed.

Lemma lstrip_fixed s :
  (∀ c t, s = c :: t → is_space c = false) → lstrip s = s.
Proof.
  destruct s as [|c t]; [done|]. intros H. simpl.
  by rewrite (H c t eq_refl).
Qed.

Lemma rstrip_fixed s :
  (∀ t c, s = t ++ [c] → is_space c = false) → rstrip s = s.
Proof.
  intros H. unfold rstrip. rewrite lstrip_fixed; [apply rev_involutive|].
  intros c t Hrev. apply (H (rev t) c).
  by rewrite <- (rev_involutive s), Hrev.
Qed.

(** Stripping twice is stripping once. *)
Lemma strip_idemp s : strip (strip s) = strip s.
Proof.
  destruct (strip_spec s) as (a & b & _ & _ & _ & Hhd & Hlast).
  unfold strip at 1. rewrite (lstrip_fixed _ Hhd). by apply rstrip_fixed.
Qed.

Lemma strip_elem s c : c ∈ strip s → c ∈ s.
Proof.
  destruct (strip_spec s) as (a & b & E & _).
  intros Hc. rewrite E, !elem_of_app. by eauto.
Qed.

(** A space in front of a token does not survive stripping. *)
Lemma strip_space_cons s : strip (32 :: s) = strip s.
Proof. reflexivity. Qed.

Lemma parse_interests_cons line :
  ∃ tok toks, parse_interests line = tok :: toks.
Proof.
  unfold parse_interests.
  destruct (split_cons_inv comma line) as (tok & toks & ->). by eauto.
Qed.

Lemma parse_interests_canonical line :
  Forall (λ t, (comma ∉ t) ∧ strip t = t) (parse_interests line).
Proof.
  unfold parse_interests.
  pose proof (split_no_sep comma line) as Hall.
  induction Hall as [|tok toks Htok _ IH]; simpl; constructor; [|done].
  split; [|apply strip_idemp].
  intros Hc. apply Htok. by apply strip_elem.
Qed.

Lemma map_strip_pad toks :
  Forall (λ t, strip t = t) toks →
  List.map strip (List.map (λ t, 32 :: t) toks) = toks.
Proof.
  induction 1 as [|tok toks Htok _ IH]; simpl; [done|].
  by rewrite strip_space_cons, Htok, IH.
Qed.

(** Parsing the ", "-joined interests gives the interests back. *)
Lemma parse_join_parse line :
  parse_interests (join (lit ", ") (parse_interests line))
  = parse_interests line.
Proof.
  pose proof (parse_interests_canonical line) as Hcan.
  destruct (parse_interests_cons line) as (tok & toks & E).
  rewrite E in Hcan |- *.
  unfold parse_interests at 1.
  change (lit ", ") with (comma :: [32]).
  rewrite split_join_pad.
  - inversion Hcan as [|? ? [_ Htok] Hrest]; subst. simpl.
    rewrite Htok. f_equal. apply map_strip_pad.
    eapply Forall_impl; [exact Hrest|]. by intros t [_ Ht].
  - intros [?|?%elem_of_nil]%elem_of_cons; done.
  - eapply Forall_impl; [exact Hcan|]. by intros t [Ht _].
Qed.

End PyStrMore.

(** ** Runs, world by world *)

(** What a run of the three steps gives and what it leaves behind, by the
    number of lines on the console. *)
Lemma chain_outputs_cases state w :
  ∃ r w',
    chain_outputs state w = (r, w')
    ∧ dotenv w' = dotenv w ∧ environ w' = environ w
    ∧ llm_respond w' = llm_respond w
    ∧ match stdin w with
      | [] | [_] =>
          r = inl EOFError ∧ stdin w' = [] ∧ llm_calls w' = llm_calls w
      | l1 :: l2 :: rest =>
          stdin w' = rest
          ∧ llm_calls w' = llm_calls w ++ [planner_request l1 l2]
          ∧ match llm_respond w (planner_request l1 l2) with
            | inl e => r = inl e
            | inr response =>
                r = inr (planner_outputs state l1 l2 response)
                ∧ stdout w' = stdout w ++ chain_transcript l1 l2 response
            end
      end.
Proof.
  unfold_steps.
  destruct (stdin w) as [|l1 [|l2 rest]]; simpl.
  - eexists _, _. split; [reflexivity|]. done.
  - eexists _, _. split; [reflexivity|]. done.
  - fold (planner_request l1 l2).
    destruct (llm_respond w (planner_request l1 l2)) as [e|response].
    + eexists _, _. split; [reflexivity|]. done.
    + eexists _, _. split; [reflexivity|].
      repeat split.
      cbn [stdout]. rewrite <- !(app_assoc (stdout w)). reflexivity.
Qed.

Lemma plan_app_chain_outputs k user_request w :
  plan_app (3 + k) user_request w =
  match chain_outputs (initial_state user_request)
          (set_stdout
             (stdout w
              ++ [(lit "Initial Request: " ++ user_request ++ [newline])
                  ++ [newline]]) w) with
  | (inl e, w') => (inl e, w')
  | (inr _, w') => (inr tt, w')
  end.
Proof.
  destruct app_compiles as (g & E & Hg).
  unfold plan_app, lift, mbind at 1, M_bind at 1. rewrite E.
  unfold run_travel_planner, print, mbind, M_bind, mret, M_ret.
  by rewrite (stream_chain g k _ _ Hg).
Qed.

Lemma invoke_app_chain_outputs k state w :
  invoke_app (3 + k) state w =
  match chain_outputs state w with
  | (inl e, w') => (inl e, w')
  | (inr outputs, w') => (inr (last_state state outputs), w')
  end.
Proof. by rewrite invoke_app_chain, chain_chain_outputs. Qed.

(** ** The interests that a line gives *)

(** X1: the interests are shown and sent joined by ", "; a line that
    holds this joined text is read back by the interests step as the very
    same interests. *)
Theorem displayed_interests_reenter
    state1 w1 state1' w1' state2 w2 rest2 :
  input_interests state1 w1 = (inr state1', w1') →
  stdin w2 = join (lit ", ") (interests state1') :: rest2 →
  ∃ state2' w2',
    input_interests state2 w2 = (inr state2', w2')
    ∧ interests state2' = interests state1'.
Proof.
  intros (_ & _ & _ & line & _ & ->)%input_interests_inv Hin.
  destruct (input_interests_returns state2 w2 _ rest2 Hin)
    as (state2' & w2' & E & _).
  exists state2', w2'. split; [done|].
  destruct (input_interests_inv _ _ _ _ E) as (_ & _ & _ & line' & Hin' & ->).
  rewrite Hin in Hin'. injection Hin' as <- _.
  apply parse_join_parse.
Qed.

Lemma displayed_interests_reenter_witness :
  ∃ state2' w2',
    input_interests demo_state (set_stdin [lit "food, wine, art"] demo_world)
    = (inr state2', w2')
    ∧ interests state2' = [lit "food"; lit "wine"; lit "art"].
Proof.
  apply (displayed_interests_reenter
           demo_state (set_stdin [lit "  food ,wine,art  "] demo_world)
           _ _
           demo_state (set_stdin [lit "food, wine, art"] demo_world) []
           eq_refl eq_refl).
Defined.

(** X2: whatever line the interests step reads, the interests it returns
    are in canonical form: there is at least one, none contains a comma,
    and stripping one again changes nothing. *)
Theorem input_interests_canonical state w state' w' :
  input_interests state w = (inr state', w') →
  interests state' ≠ []
  ∧ Forall (λ t, (comma ∉ t) ∧ strip t = t) (interests state').
Proof.
  intros (_ & _ & _ & line & _ & ->)%input_interests_inv.
  change (interests (with_interests state line))
    with (parse_interests line).
  split; [|apply parse_interests_canonical].
  by destruct (parse_interests_cons line) as (tok & toks & ->).
Qed.

Lemma input_interests_canonical_witness :
  ∃ state' w',
    input_interests demo_state
      (set_stdin [lit " , food ,, wine "] demo_world) = (inr state', w')
    ∧ interests state' ≠ []
    ∧ Forall (λ t, (comma ∉ t) ∧ strip t = t) (interests state').
Proof.
  eexists _, _. split; [reflexivity|].
  apply (input_interests_canonical demo_state
           (set_stdin [lit " , food ,, wine "] demo_world) _ _ eq_refl).
Defined.

(** ** How a run fails *)

(** X3: with fewer than two lines on the console a run fails with
    [EOFError]; the lines there were are used up and no request is sent
    to the service. *)
Theorem run_without_input_fails k state w :
  (length (stdin w) < 2)%nat →
  ∃ w',
    invoke_app (3 + k) state w = (inl EOFError, w')
    ∧ stdin w' = []
    ∧ llm_calls w' = llm_calls w.
Proof.
  intros Hlen. rewrite invoke_app_chain_outputs.
  destruct (chain_outputs_cases state w) as (r & w' & -> & _ & _ & _ & H).
  destruct (stdin w) as [|l1 [|l2 rest]]; simpl in Hlen; try lia;
    destruct H as (-> & ? & ?); by exists w'.
Qed.

Lemma run_without_input_fails_witness :
  ∃ w',
    invoke_app 3 demo_state one_line_world = (inl EOFError, w')
    ∧ stdin w' = []
    ∧ llm_calls w' = [].
Proof.
  apply (run_without_input_fails 0 demo_state one_line_world).
  simpl. lia.
Defined.

(** X4: when the service call raises, the run fails with that very
    exception; both lines have been read, and the request was sent once:
    nothing is retried and nothing is caught. *)
Theorem service_error_surfaces k state w l1 l2 rest e :
  stdin w = l1 :: l2 :: rest →
  llm_respond w (planner_request l1 l2) = inl e →
  ∃ w',
    invoke_app (3 + k) state w = (inl e, w')
    ∧ stdin w' = rest
    ∧ llm_calls w' = llm_calls w ++ [planner_request l1 l2].
Proof.
  intros Hin Hllm. rewrite invoke_app_chain_outputs.
  destruct (chain_outputs_cases state w) as (r & w' & -> & _ & _ & _ & H).
  rewrite Hin, Hllm in H. destruct H as (? & ? & ->). by exists w'.
Qed.

Lemma service_error_surfaces_witness :
  ∃ w',
    invoke_app 3 demo_state service_down_world
    = (inl (ServiceError (lit "timeout")), w')
    ∧ stdin w' = []
    ∧ llm_calls w' = [planner_request (lit "paris") (lit "food")].
Proof.
  apply (service_error_surfaces 0 demo_state service_down_world
           (lit "paris") (lit "food") [] (ServiceError (lit "timeout"))
           eq_refl eq_refl).
Defined.

(** X5: a run that completes has read exactly two lines, the first of
    which is the final city and the second of which parses to the final
    interests; it has sent exactly one request, the prompt made from the
    final city and interests, and the final itinerary is the service's
    answer to that request; the environment is as it was. *)
Theorem completed_run_accounts k state w state' w' :
  invoke_app (3 + k) state w = (inr state', w') →
  ∃ l2,
    stdin w = city state' :: l2 :: stdin w'
    ∧ interests state' = parse_interests l2
    ∧ llm_calls w' = llm_calls w ++ [itinerary_request state']
    ∧ llm_respond w (itinerary_request state') = inr (itinerary state')
    ∧ environ w' = environ w
    ∧ dotenv w' = dotenv w.
Proof.
  rewrite invoke_app_chain_outputs.
  destruct (chain_outputs_cases state w)
    as (r & w1 & -> & Hd & He & _ & H).
  destruct (stdin w) as [|l1 [|l2 rest]].
  - destruct H as (-> & _). done.
  - destruct H as (-> & _). done.
  - destruct H as (Hrest & Hcalls & H).
    destruct (llm_respond w (planner_request l1 l2)) as [e|response] eqn:Hllm.
    + subst r. done.
    + destruct H as (-> & _). intros [= <- <-].
      exists l2. rewrite Hrest. by repeat split.
Qed.

Lemma completed_run_accounts_witness :
  ∃ state' w' l2,
    invoke_app 3 demo_state demo_world = (inr state', w')
    ∧ stdin demo_world = city state' :: l2 :: stdin w'
    ∧ llm_calls w' = [itinerary_request state'].
Proof.
  destruct (chain_returns demo_state demo_world (lit "paris")
              (lit "food, wine, art") [] (lit "<itinerary text>")
              eq_refl eq_refl) as (w' & E & _).
  rewrite <- (invoke_app_chain 0) in E.
  destruct (completed_run_accounts 0 demo_state demo_world _ w' E)
    as (l2 & Hin & _ & Hcalls & _).
  eexists _, w', l2. split; [exact E|]. split; [exact Hin|exact Hcalls].
Defined.

(** ** What the user sees *)

Lemma last_app_cons {A} (l l' : list A) (x d : A) :
  List.last (l ++ x :: l') d = List.last (x :: l') d.
Proof.
  induction l as [|y l IH]; [done|].
  rewrite <- IH. simpl. by destruct (l ++ x :: l') eqn:E; [destruct l|].
Qed.

Lemma plan_app_returns k user_request w l1 l2 rest response :
  stdin w = l1 :: l2 :: rest →
  llm_respond w (planner_request l1 l2) = inr response →
  ∃ w',
    plan_app (3 + k) user_request w = (inr tt, w')
    ∧ stdout w' = stdout w ++ transcript user_request l1 l2 response
    ∧ stdin w' = rest
    ∧ llm_calls w' = llm_calls w ++ [planner_request l1 l2]
    ∧ llm_respond w' = llm_respond w
    ∧ environ w' = environ w ∧ dotenv w' = dotenv w.
Proof.
  intros Hin Hllm. rewrite plan_app_chain_outputs.
  set (w0 := set_stdout _ w).
  destruct (chain_outputs_cases (initial_state user_request) w0)
    as (r & w' & -> & Hd & He & Hr & H).
  change (stdin w0) with (stdin w) in H.
  change (llm_respond w0) with (llm_respond w) in H.
  rewrite Hin, Hllm in H. destruct H as (? & ? & -> & Hout).
  exists w'. split; [done|].
  split; [|done].
  rewrite Hout. unfold transcript. simpl. by rewrite <- app_assoc.
Qed.

(** X6: a call of [run_travel_planner] that finds two lines and gets an
    answer returns nothing and writes to the console, after what was
    there: the request, the city prompt, the interests prompt naming the
    city just read, the announcement naming the city and the interests
    joined by ", " (as parsed, not as typed), and the answer of the
    service as the final itinerary. *)
Theorem run_travel_planner_transcript k user_request w l1 l2 rest response :
  stdin w = l1 :: l2 :: rest →
  llm_respond w (planner_request l1 l2) = inr response →
  ∃ w',
    plan_app (3 + k) user_request w = (inr tt, w')
    ∧ stdout w' = stdout w ++ transcript user_request l1 l2 response
    ∧ List.last (stdout w') [] = response ++ [newline].
Proof.
  intros Hin Hllm.
  destruct (plan_app_returns k user_request w l1 l2 rest response Hin Hllm)
    as (w' & E & Hout & _).
  exists w'. split; [done|]. split; [done|].
  rewrite Hout. unfold transcript. by rewrite last_app_cons.
Qed.

Lemma run_travel_planner_transcript_witness :
  ∃ w',
    plan_app 3 (lit "I want to plan a day trip.") demo_world = (inr tt, w')
    ∧ length (stdout w') = 8%nat
    ∧ List.last (stdout w') [] = lit "<itinerary text>" ++ [newline].
Proof.
  destruct (run_travel_planner_transcript 0 (lit "I want to plan a day trip.")
              demo_world (lit "paris") (lit "food, wine, art") []
              (lit "<itinerary text>") eq_refl eq_refl)
    as (w' & E & Hout & Hlast).
  exists w'. split; [exact E|]. split; [|exact Hlast].
  rewrite Hout. reflexivity.
Defined.

(** ** The set-up cell *)

Lemma setup_eq w :
  setup w =
  (match loaded_environ w !! OPENAI_API_KEY with
   | Some _ => inr tt
   | None => inl TypeError
   end, set_environ (loaded_environ w) w).
Proof.
  unfold setup, load_dotenv, getenv, environ_setitem, mbind, M_bind,
    loaded_environ.
  simpl.
  destruct ((environ w ∪ dotenv w) !! OPENAI_API_KEY) as [key|] eqn:E;
    [|done].
  unfold set_environ. simpl. by rewrite (insert_id _ _ _ E).
Qed.

(** X7: the set-up cell first loads the [.env] file and then checks the
    key: it succeeds exactly when the key is then set, and fails with
    [TypeError] otherwise; either way the environment it leaves is the
    loaded one, in which every variable the process already had keeps its
    value and only variables that were not set take the value of the
    file.  The assignment of the key to itself changes nothing, and the
    rest of the world is untouched. *)
Theorem setup_loads_then_checks w :
  setup w =
  (match loaded_environ w !! OPENAI_API_KEY with
   | Some _ => inr tt
   | None => inl TypeError
   end, set_environ (loaded_environ w) w)
  ∧ (∀ key value,
       environ w !! key = Some value →
       loaded_environ w !! key = Some value)
  ∧ (∀ key,
       environ w !! key = None →
       loaded_environ w !! key = dotenv w !! key).
Proof.
  split; [apply setup_eq|]. unfold loaded_environ. split.
  - intros key value H. by apply lookup_union_Some_l.
  - intros key H. by apply lookup_union_r.
Qed.

(** X8: running the set-up cell again changes nothing: from the world a
    first run leaves, a second run gives the same outcome and leaves the
    same world. *)
Theorem setup_idempotent w r w' :
  setup w = (r, w') → setup w' = (r, w').
Proof.
  rewrite setup_eq. intros [= <- <-]. rewrite setup_eq.
  assert (loaded_environ (set_environ (loaded_environ w) w)
          = loaded_environ w) as ->.
  { unfold loaded_environ. simpl.
    by rewrite <- (assoc_L (∪)), (idemp_L (∪)). }
  done.
Qed.

Lemma setup_idempotent_witness :
  ∃ w',
    setup dotenv_world = (inr tt, w')
    ∧ setup w' = (inr tt, w')
    ∧ environ w' !! "HOME" = Some (lit "/root")
    ∧ environ w' !! OPENAI_API_KEY = Some (lit "sk-file").
Proof.
  destruct (setup dotenv_world) as [r w'] eqn:E.
  pose proof (setup_idempotent dotenv_world r w' E) as E'.
  rewrite setup_eq in E. injection E as <- <-.
  eexists. split; [reflexivity|]. split; [exact E'|].
  split; vm_compute; reflexivity.
Defined.

(** ** The notebook from end to end *)





(** ** What a run keeps and what it ignores *)

(** X11: the messages key is declared to hold user and assistant
    messages only; a run that starts with such messages ends with such
    messages, and so does every state it streams: the system message of
    the prompt goes to the service and never into the conversation. *)
Theorem messages_stay_turns k state w outputs w' :
  Forall is_turn (messages state) →
  stream_app (3 + k) state w = (inr outputs, w') →
  Forall (λ output, Forall is_turn (messages output.2)) outputs
  ∧ Forall is_turn (messages (last_state state outputs)).
Proof.
  intros Hturns. rewrite stream_app_chain.
  intros (l1 & l2 & response & _ & _ & ->)%chain_outputs_inv.
  assert (∀ ms m, Forall is_turn ms → is_turn m → Forall is_turn (ms ++ [m]))
    as Hsnoc.
  { intros ms m Hms Hm. apply Forall_app. split; [done|]. by constructor. }
  assert (Forall is_turn (messages (with_city state l1))) as H1.
  { by apply Hsnoc. }
  assert (Forall is_turn
            (messages (with_interests (with_city state l1) l2))) as H2.
  { by apply Hsnoc. }
  assert (Forall is_turn
            (messages (with_itinerary
                         (with_interests (with_city state l1) l2) response)))
    as H3.
  { by apply Hsnoc. }
  split; [|done].
  repeat constructor; done.
Qed.

Lemma messages_stay_turns_witness :
  ∃ outputs w',
    stream_app 3 demo_state demo_world = (inr outputs, w')
    ∧ Forall is_turn (messages (last_state demo_state outputs)).
Proof.
  destruct (chain_outputs_returns demo_state demo_world (lit "paris")
              (lit "food, wine, art") [] (lit "<itinerary text>")
              eq_refl eq_refl) as (w' & E & _).
  rewrite <- (stream_app_chain 0) in E.
  eexists _, w'. split; [exact E|].
  apply (messages_stay_turns 0 demo_state demo_world _ w');
    [repeat constructor|exact E].
Defined.

(** X12: two calls of [run_travel_planner] in a row share nothing but the
    console and the service: the second reads the next two lines, sends
    the request made from those two lines alone, and prints what it
    would print on its own; no city, interest or message of the first
    call reaches the second. *)
Theorem two_runs_share_nothing
    k j request1 request2 w l1 l2 l3 l4 rest response1 response2 :
  stdin w = l1 :: l2 :: l3 :: l4 :: rest →
  llm_respond w (planner_request l1 l2) = inr response1 →
  llm_respond w (planner_request l3 l4) = inr response2 →
  ∃ w',
    (plan_app (3 + k) request1 ;; plan_app (3 + j) request2) w = (inr tt, w')
    ∧ stdin w' = rest
    ∧ llm_calls w'
      = llm_calls w ++ [planner_request l1 l2; planner_request l3 l4]
    ∧ stdout w'
      = stdout w ++ transcript request1 l1 l2 response1
                 ++ transcript request2 l3 l4 response2.
Proof.
  intros Hin Hllm1 Hllm2.
  destruct (plan_app_returns k request1 w l1 l2 (l3 :: l4 :: rest) response1
              Hin Hllm1) as (w1 & E1 & Hout1 & Hin1 & Hcalls1 & Hr1 & _).
  rewrite <- Hr1 in Hllm2.
  destruct (plan_app_returns j request2 w1 l3 l4 rest response2
              Hin1 Hllm2) as (w2 & E2 & Hout2 & Hin2 & Hcalls2 & _).
  exists w2. unfold mbind, M_bind. rewrite E1, E2.
  split; [done|]. split; [done|].
  split.
  - by rewrite Hcalls2, Hcalls1, <- app_assoc.
  - by rewrite Hout2, Hout1, <- app_assoc.
Qed.

Lemma two_runs_share_nothing_witness :
  ∃ w',
    (plan_app 3 (lit "first") ;; plan_app 3 (lit "second")) two_trips_world
    = (inr tt, w')
    ∧ stdin w' = []
    ∧ llm_calls w'
      = [planner_request (lit "paris") (lit "food, wine");
         planner_request (lit "rome") (lit "art")].
Proof.
  destruct (two_runs_share_nothing 0 0 (lit "first") (lit "second")
              two_trips_world (lit "paris") (lit "food, wine")
              (lit "rome") (lit "art") []
              (lit "<itinerary text>") (lit "<itinerary text>")
              eq_refl eq_refl eq_refl)
    as (w' & E & Hin & Hcalls & _).
  exists w'. split; [exact E|]. split; [exact Hin|exact Hcalls].
Defined.

(** X13: a run never reads the city, the interests or the itinerary of
    the state it is given, and uses its messages only as the front of the
    final ones: from two different initial states in the same world, two
    runs leave the same world (same lines read, same request sent, same
    text printed), fail alike or else end with the same city, interests
    and itinerary, and with the same three messages after those each
    started with. *)
Theorem run_ignores_initial_fields k state1 state2 w :
  (invoke_app (3 + k) state1 w).2 = (invoke_app (3 + k) state2 w).2
  ∧ match (invoke_app (3 + k) state1 w).1,
          (invoke_app (3 + k) state2 w).1 with
    | inr final1, inr final2 =>
        city final1 = city final2
        ∧ interests final1 = interests final2
        ∧ itinerary final1 = itinerary final2
        ∧ ∃ added,
            length added = 3%nat
            ∧ messages final1 = messages state1 ++ added
            ∧ messages final2 = messages state2 ++ added
    | inl e1, inl e2 => e1 = e2
    | _, _ => False
    end.
Proof.
  rewrite !invoke_app_chain. unfold_steps.
  destruct (stdin w) as [|l1 [|l2 rest]]; simpl; try done.
  destruct (llm_respond w _) as [e|response]; simpl; [done|].
  split; [done|]. repeat split.
  exists [HumanMessage l1; HumanMessage l2; AIMessage response].
  by rewrite <- !app_assoc.
Qed.

(** ** Interests and the request *)

(** X14: for a given city, the request sent to the service determines the
    interests: two interest lines whose requests are the same parse to
    the same interests, so no two different interest lists are ever sent
    as the same text. *)
Theorem request_determines_interests l1 l2 l2' :
  planner_request l1 l2 = planner_request l1 l2' →
  parse_interests l2 = parse_interests l2'.
Proof.
  unfold planner_request, itinerary_prompt.
  fold (parse_interests l2). fold (parse_interests l2').
  generalize (lit ". Provide a brief, bulleted itinerary.").
  generalize (lit " based on the user's interests: ").
  generalize
    (lit "You are a helpful travel assistant. Create a day trip itinerary for ").
  intros p1 p2 p3 [= H].
  do 3 apply app_inv_head in H. apply app_inv_tail in H.
  by rewrite <- (parse_join_parse l2), H, parse_join_parse.
Qed.

Lemma request_determines_interests_witness :
  parse_interests (lit "food ,wine") = parse_interests (lit " food,  wine").
Proof.
  apply (request_determines_interests (lit "paris")).
  vm_compute. reflexivity.
Defined.

Section BlankTokens.

Implicit Types (s t line : str) (c : N).

Lemma lstrip_all_space s : all_space s → lstrip s = [].
Proof.
  induction 1 as [|c s Hc _ IH]; simpl; [done|]. by rewrite Hc.
Qed.

(** A token strips to the empty string exactly when it is made of
    whitespace only. *)
Lemma strip_nil_iff t : strip t = [] ↔ all_space t.
Proof.
  split.
  - intros E. destruct (strip_spec t) as (a & b & Et & Ha & Hb & _).
    rewrite E in Et. rewrite Et. simpl. by apply Forall_app.
  - intros H. unfold strip. by rewrite (lstrip_all_space _ H).
Qed.

Lemma split_all_space line :
  Forall (λ c, c = comma ∨ is_space c = true) line
  ↔ Forall all_space (split comma line).
Proof.
  induction line as [|c rest IH]; simpl.
  - split; intros _; repeat constructor.
  - destruct (N.eqb_spec c comma) as [->|Hne].
    + split.
      * intros H. inversion H; subst. constructor; [constructor|].
        by apply IH.
      * intros H. inversion H; subst. constructor; [by left|].
        by apply IH.
    + destruct (split_cons_inv comma rest) as (tok & toks & E).
      rewrite E in IH |- *. split.
      * intros H. inversion H as [|? ? [?|Hc] Hrest]; subst; [done|].
        apply IH in Hrest. inversion Hrest; subst.
        constructor; [by constructor|done].
      * intros H. inversion H as [|? ? Htok Htoks]; subst.
        inversion Htok; subst.
        constructor; [by right|]. apply IH. by constructor.
Qed.

End BlankTokens.

(** X15: the interests read from a line are all empty strings exactly
    when the line holds nothing but commas and whitespace; such a line is
    accepted, and its empty interests are kept, one more than it has
    commas. *)
Theorem blank_line_gives_empty_interests line :
  (Forall (λ c, c = comma ∨ is_space c = true) line
   ↔ Forall (λ interest, interest = []) (parse_interests line))
  ∧ length (parse_interests line) = S (count comma line).
Proof.
  split.
  - rewrite split_all_space. unfold parse_interests.
    induction (split comma line) as [|tok toks IH]; simpl.
    + split; intros _; constructor.
    + split; intros H; inversion H; subst; constructor;
        try (by apply strip_nil_iff); by apply IH.
  - unfold parse_interests. by rewrite length_map, length_split.
Qed.
